(** * Mines and knights: the minesweeper knowledge base and the model checker

    A shallow embedding of [minesweeper/minesweeper.py] (board, [Sentence],
    [MinesweeperAI]) and of [knights/logic.py] (propositional sentences and
    [model_check]), followed by the properties of the inference engine.

    Conventions.  A cell is a pair of Python integers, hence [Z * Z]; a Python
    [set] of cells is a [gset]; the knowledge base is a Python list of
    [Sentence] objects, each owning its own cell set ([Sentence.__init__]
    copies its argument), so the in-place updates of [mark_mine]/[mark_safe]
    on every sentence are a [fmap] over the list.  Iteration over a Python
    set visits its members in an unspecified order; the embedding iterates
    over [elements], and no statement below depends on that order.  A Python
    exception is [None] in an [option] result. *)

From stdpp Require Import gmap strings list list_numbers fin_sets.
From Stdlib Require Import ZArith Lia.

Local Open Scope Z_scope.

Abbreviation cell := (Z * Z)%type.

(** [in_range(height, width, cell)] *)
Definition in_range (height width : Z) (c : cell) : bool :=
  (0 <=? c.1) && (c.1 <? height) && (0 <=? c.2) && (c.2 <? width).

(** The two nested loops [for di in [-1, 0, 1]: for dj in [-1, 0, 1]] with
    the [(di, dj) == (0, 0)] iteration skipped. *)
Definition offsets : list (Z * Z) :=
  di ← [-1; 0; 1]; dj ← [-1; 0; 1];
  if decide ((di, dj) = (0, 0)) then [] else [(di, dj)].

Definition neighbors (c : cell) : list cell :=
  (λ d : Z * Z, (c.1 + d.1, c.2 + d.2)) <$> offsets.

(** ** class Minesweeper: the board *)
Module Minesweeper.

(** [board[i][j]] is [True] exactly for the cells of [mines]; the
    constructor only ever sets in-range entries. *)
Record t := mk {
  height : Z;
  width : Z;
  mines : gset cell
}.

Definition is_mine (b : t) (c : cell) : option bool :=
  if in_range (height b) (width b) c
  then Some (bool_decide (c ∈ mines b))
  else None.

Definition nearby_mines (b : t) (c : cell) : option Z :=
  if in_range (height b) (width b) c
  then Some (foldl (λ n nb,
                      if in_range (height b) (width b) nb
                         && bool_decide (nb ∈ mines b)
                      then n + 1 else n)
                   0 (neighbors c))
  else None.

End Minesweeper.

(** ** class Sentence (minesweeper) *)
Module Sentence.

Record t := mk {
  cells : gset cell;
  count : Z
}.

(** [Sentence(cells, count)]: [self.cells = set(cells)] *)
Definition init (cs : list cell) (n : Z) : t :=
  {| cells := list_to_set cs; count := n |}.

(** [__eq__] compares cell sets and counts: it is Leibniz equality on the
    record, decided here. *)
#[global] Instance eq_dec : EqDecision t.
Proof. solve_decision. Defined.

(** [known_mines]: falls off the end (returns [None]) when the test fails. *)
Definition known_mines (s : t) : option (gset cell) :=
  if (Z.of_nat (size (cells s)) =? count s) && negb (count s =? 0)
  then Some (cells s)
  else None.

Definition known_safes (s : t) : gset cell :=
  if count s =? 0 then cells s else ∅.

Definition mark_mine (c : cell) (s : t) : t :=
  if decide (c ∈ cells s)
  then {| cells := cells s ∖ {[c]}; count := count s - 1 |}
  else s.

Definition mark_safe (c : cell) (s : t) : t :=
  if decide (c ∈ cells s)
  then {| cells := cells s ∖ {[c]}; count := count s |}
  else s.

End Sentence.

(** Python truthiness of a value that is [None] or a set. *)
Definition truthy_opt (o : option (gset cell)) : bool :=
  match o with
  | Some cs => negb (bool_decide (cs = ∅))
  | None => false
  end.

Definition truthy_set (cs : gset cell) : bool := negb (bool_decide (cs = ∅)).

(** ** class MinesweeperAI *)
Module MinesweeperAI.

Record t := mk {
  height : Z;
  width : Z;
  moves_made : gset cell;
  mines : gset cell;
  safes : gset cell;
  knowledge : list Sentence.t
}.

Definition init (h w : Z) : t :=
  {| height := h; width := w;
     moves_made := ∅; mines := ∅; safes := ∅; knowledge := [] |}.

Definition mark_mine (c : cell) (ai : t) : t :=
  {| height := height ai; width := width ai;
     moves_made := moves_made ai;
     mines := {[c]} ∪ mines ai;
     safes := safes ai;
     knowledge := Sentence.mark_mine c <$> knowledge ai |}.

Definition mark_safe (c : cell) (ai : t) : t :=
  {| height := height ai; width := width ai;
     moves_made := moves_made ai;
     mines := mines ai;
     safes := {[c]} ∪ safes ai;
     knowledge := Sentence.mark_safe c <$> knowledge ai |}.

(** The sentence [sentence2 - sentence1] built in the inner loop. *)
Definition inferred (s1 s2 : Sentence.t) : Sentence.t :=
  Sentence.mk (Sentence.cells s2 ∖ Sentence.cells s1)
              (Sentence.count s2 - Sentence.count s1).

(** One iteration of the inner loop body: [new] is [new_knowledge]. *)
Definition infer_pair (kb : list Sentence.t) (s1 : Sentence.t)
    (new : list Sentence.t) (s2 : Sentence.t) : list Sentence.t :=
  if bool_decide (s1 ≠ s2)
     && bool_decide (Sentence.cells s1 ⊆ Sentence.cells s2)
  then
    let new_sentence := inferred s1 s2 in
    if bool_decide (new_sentence ∉ kb) && bool_decide (new_sentence ∉ new)
    then new ++ [new_sentence]
    else new
  else new.

(** The two nested loops over [self.knowledge]. *)
Definition new_knowledge (kb : list Sentence.t) : list Sentence.t :=
  foldl (λ new s1, foldl (infer_pair kb s1) new kb) [] kb.

Definition infer_new_sentences (ai : t) : t :=
  {| height := height ai; width := width ai;
     moves_made := moves_made ai; mines := mines ai; safes := safes ai;
     knowledge := knowledge ai ++ new_knowledge (knowledge ai) |}.

(** The neighbour scan of [add_knowledge]: the accumulator is
    [(count_mines, undtermined_moves)]. *)
Definition scan_step (ai : t) (acc : Z * list cell) (neighbor : cell)
    : Z * list cell :=
  let count_mines :=
    if bool_decide (neighbor ∈ mines ai) then acc.1 + 1 else acc.1 in
  let undtermined_moves :=
    if in_range (height ai) (width ai) neighbor
       && bool_decide (neighbor ∉ safes ai)
       && bool_decide (neighbor ∉ mines ai)
    then acc.2 ++ [neighbor] else acc.2 in
  (count_mines, undtermined_moves).

Definition scan (ai : t) (c : cell) : Z * list cell :=
  foldl (scan_step ai) (0, []) (neighbors c).

(** Lines 181-204 of [add_knowledge]: record the move, mark the cell safe,
    scan the neighbourhood and append the new sentence. *)
Definition record_reveal (c : cell) (n : Z) (ai : t) : t :=
  let ai1 :=
    mark_safe c
      {| height := height ai; width := width ai;
         moves_made := {[c]} ∪ moves_made ai;
         mines := mines ai; safes := safes ai;
         knowledge := knowledge ai |} in
  let r := scan ai1 c in
  {| height := height ai1; width := width ai1;
     moves_made := moves_made ai1; mines := mines ai1; safes := safes ai1;
     knowledge := knowledge ai1 ++ [Sentence.init r.2 (n - r.1)] |}.

(** The body of the loop of lines 207-213 for the sentence at index [i].
    Marking mutates the sentences in place, so the sentence is read again
    from the current state before the second test. *)
Definition propagate_at (ai : t) (i : nat) : t :=
  match knowledge ai !! i with
  | None => ai
  | Some sentence =>
      let ai1 :=
        if truthy_opt (Sentence.known_mines sentence)
        then foldl (λ a c, mark_mine c a) ai
                   (elements (default ∅ (Sentence.known_mines sentence)))
        else ai in
      match knowledge ai1 !! i with
      | None => ai1
      | Some sentence' =>
          if truthy_set (Sentence.known_safes sentence')
          then foldl (λ a c, mark_safe c a) ai1
                     (elements (Sentence.known_safes sentence'))
          else ai1
      end
  end.

(** [for sentence in self.knowledge]: the list keeps its length during the
    loop, so the indices visited are those of the list at loop entry. *)
Definition propagate (ai : t) : t :=
  foldl propagate_at ai (seq 0 (length (knowledge ai))).

Definition add_knowledge (c : cell) (n : Z) (ai : t) : t :=
  infer_new_sentences (propagate (record_reveal c n ai)).

Definition make_safe_move (ai : t) : option cell :=
  List.find (λ c, bool_decide (c ∉ moves_made ai)) (elements (safes ai)).

(** The candidate list built by the two [range] loops. *)
Definition candidate_moves (ai : t) : list cell :=
  i ← seqZ 0 (height ai); j ← seqZ 0 (width ai);
  if bool_decide ((i, j) ∉ moves_made ai) && bool_decide ((i, j) ∉ mines ai)
  then [(i, j)] else [].

(** [random.choice(moves)] returns one of the elements of [moves]; the
    index drawn is the parameter [pick], reduced into range. *)
Definition make_random_move (pick : nat) (ai : t) : option cell :=
  let moves := candidate_moves ai in
  if bool_decide (length moves ≠ 0%nat)
  then moves !! (pick mod length moves)%nat
  else None.

End MinesweeperAI.

(** ** Driving the agent

    The public entry points a driver may call, in any order. *)
Inductive call :=
  | AddKnowledge (c : cell) (n : Z)
  | MarkMine (c : cell)
  | MarkSafe (c : cell)
  | MakeSafeMove
  | MakeRandomMove (pick : nat).

(** The move queries only read the state. *)
Definition exec (ai : MinesweeperAI.t) (k : call) : MinesweeperAI.t :=
  match k with
  | AddKnowledge c n => MinesweeperAI.add_knowledge c n ai
  | MarkMine c => MinesweeperAI.mark_mine c ai
  | MarkSafe c => MinesweeperAI.mark_safe c ai
  | MakeSafeMove | MakeRandomMove _ => ai
  end.

Definition run (ai : MinesweeperAI.t) (ks : list call) : MinesweeperAI.t :=
  foldl exec ai ks.

(** A call is admissible when it does not classify a cell against what is
    already recorded: no cell of [mines] is revealed or marked safe, no cell
    of [safes] is marked as a mine.  The source has no such guard; it is a
    condition on the driver. *)
Definition admissible (ai : MinesweeperAI.t) (k : call) : bool :=
  match k with
  | AddKnowledge c _ | MarkSafe c => bool_decide (c ∉ MinesweeperAI.mines ai)
  | MarkMine c => bool_decide (c ∉ MinesweeperAI.safes ai)
  | MakeSafeMove | MakeRandomMove _ => true
  end.

Fixpoint admissible_trace (ai : MinesweeperAI.t) (ks : list call) : bool :=
  match ks with
  | [] => true
  | k :: ks => admissible ai k && admissible_trace (exec ai k) ks
  end.

(** The constructor of [Minesweeper] only places mines inside the board. *)
Definition board_ok (b : Minesweeper.t) : bool :=
  forallb (in_range (Minesweeper.height b) (Minesweeper.width b))
          (elements (Minesweeper.mines b)).

(** A call is truthful for a board when it reports the board: a reveal is
    of a cell that is not a mine, with the count [nearby_mines] gives (both
    raise outside the board), and the marking operations are used on actual
    mines and on actual non-mines. *)
Definition truthful (b : Minesweeper.t) (k : call) : bool :=
  match k with
  | AddKnowledge c n =>
      bool_decide (Minesweeper.is_mine b c = Some false)
      && bool_decide (Minesweeper.nearby_mines b c = Some n)
  | MarkMine c => bool_decide (c ∈ Minesweeper.mines b)
  | MarkSafe c => bool_decide (c ∉ Minesweeper.mines b)
  | MakeSafeMove | MakeRandomMove _ => true
  end.

(** Python truthiness of [known_mines()] or of [known_safes()]: the tests of
    the propagation pass. *)
Definition resolvable (s : Sentence.t) : bool :=
  truthy_opt (Sentence.known_mines s) || truthy_set (Sentence.known_safes s).

(** ** knights/logic.py

    A sentence is an instance of [Symbol], of one of the five connective
    classes, or of the base class [Sentence] itself ([Base]), which
    [Sentence.validate] accepts as an operand: its [evaluate] always raises
    and its [symbols] is the empty set.  [And] and [Or] take any number of
    operands, zero included.  A model is a [dict] from symbol names to
    booleans. *)
Module Logic.

#[warnings="-register-all"] Inductive Sentence :=
  | Base
  | Symbol (name : string)
  | Not (operand : Sentence)
  | And (conjuncts : list Sentence)
  | Or (disjuncts : list Sentence)
  | Implication (antecedent consequent : Sentence)
  | Biconditional (lhs rhs : Sentence).
(* [Base] is an instance of the base class [Sentence] itself; [lhs] and
   [rhs] are the fields [left] and [right] of the source. *)

(** Python's [not], [and] and [or] on results that may raise: the right
    operand of [and]/[or] is not evaluated when the left one decides. *)
Definition py_not (x : option bool) : option bool := negb <$> x.

Definition py_and (x y : option bool) : option bool :=
  match x with
  | Some true => y
  | Some false => Some false
  | None => None
  end.

Definition py_or (x y : option bool) : option bool :=
  match x with
  | Some true => Some true
  | Some false => y
  | None => None
  end.

Fixpoint evaluate (model : gmap string bool) (s : Sentence) : option bool :=
  match s with
  | Base => None
  | Symbol name => model !! name
  | Not operand => py_not (evaluate model operand)
  | And conjuncts =>
      foldr (λ c rest, py_and (evaluate model c) rest) (Some true) conjuncts
  | Or disjuncts =>
      foldr (λ d rest, py_or (evaluate model d) rest) (Some false) disjuncts
  | Implication antecedent consequent =>
      py_or (py_not (evaluate model antecedent)) (evaluate model consequent)
  | Biconditional lhs rhs =>
      py_or (py_and (evaluate model lhs) (evaluate model rhs))
            (py_and (py_not (evaluate model lhs))
                    (py_not (evaluate model rhs)))
  end.

(** [set.union] applied to an unpacked list of sets: it raises a
    [TypeError] when the list is empty. *)
Definition set_union_star (sets : list (option (gset string)))
    : option (gset string) :=
  match sets with
  | [] => None
  | first :: rest =>
      foldl (λ acc s, a ← acc; x ← s; Some (a ∪ x)) first rest
  end.

Fixpoint symbols (s : Sentence) : option (gset string) :=
  match s with
  | Base => Some ∅
  | Symbol name => Some {[ name ]}
  | Not operand => symbols operand
  | And conjuncts => set_union_star (map symbols conjuncts)
  | Or disjuncts => set_union_star (map symbols disjuncts)
  | Implication antecedent consequent =>
      a ← symbols antecedent; c ← symbols consequent; Some (a ∪ c)
  | Biconditional lhs rhs =>
      l ← symbols lhs; r ← symbols rhs; Some (l ∪ r)
  end.

Fixpoint check_all (knowledge query : Sentence) (symbols : list string)
    (model : gmap string bool) : option bool :=
  match symbols with
  | [] =>
      match evaluate model knowledge with
      | Some true => evaluate model query
      | Some false => Some true
      | None => None
      end
  | p :: remaining =>
      py_and (check_all knowledge query remaining (<[p:=true]> model))
             (check_all knowledge query remaining (<[p:=false]> model))
  end.

(** Every [And] and [Or] of the sentence has at least one operand, as the
    docstrings of the two classes require. *)
Fixpoint nonempty_operands (s : Sentence) : bool :=
  match s with
  | Base | Symbol _ => true
  | Not operand => nonempty_operands operand
  | And conjuncts =>
      negb (bool_decide (conjuncts = []))
      && forallb nonempty_operands conjuncts
  | Or disjuncts =>
      negb (bool_decide (disjuncts = []))
      && forallb nonempty_operands disjuncts
  | Implication antecedent consequent =>
      nonempty_operands antecedent && nonempty_operands consequent
  | Biconditional lhs rhs =>
      nonempty_operands lhs && nonempty_operands rhs
  end.

(** No instance of the bare base class occurs in the sentence: it is built
    from symbols and the five connectives only. *)
Fixpoint base_free (s : Sentence) : bool :=
  match s with
  | Base => false
  | Symbol _ => true
  | Not operand => base_free operand
  | And conjuncts => forallb base_free conjuncts
  | Or disjuncts => forallb base_free disjuncts
  | Implication antecedent consequent =>
      base_free antecedent && base_free consequent
  | Biconditional lhs rhs => base_free lhs && base_free rhs
  end.

Definition model_check (knowledge query : Sentence) : option bool :=
  ks ← symbols knowledge; qs ← symbols query;
  check_all knowledge query (elements (ks ∪ qs)) ∅.

End Logic.

(** ** Predicates of the statements *)

(** What a pair [(s1, s2)] of the knowledge base contributes to the
    elimination pass, when it contributes. *)
Definition derives (kb : list Sentence.t) (s1 s2 t : Sentence.t) : Prop :=
  s1 ∈ kb ∧ s2 ∈ kb ∧ s1 ≠ s2
  ∧ Sentence.cells s1 ⊆ Sentence.cells s2
  ∧ t = MinesweeperAI.inferred s1 s2.

(** No sentence of the knowledge base contains a cell of [mines] or of
    [safes]. *)
Definition clean (a : MinesweeperAI.t) : Prop :=
  ∀ s, s ∈ MinesweeperAI.knowledge a →
       Sentence.cells s ## MinesweeperAI.mines a ∪ MinesweeperAI.safes a.

Definition disjoint_sets (a : MinesweeperAI.t) : Prop :=
  MinesweeperAI.mines a ## MinesweeperAI.safes a.

(** No cell of a sentence has been classified since the sets were [m0] and
    [s0]. *)
Definition unmarked_since (m0 s0 : gset cell) (a : MinesweeperAI.t) : Prop :=
  ∀ s x, s ∈ MinesweeperAI.knowledge a → x ∈ Sentence.cells s →
         (x ∈ MinesweeperAI.mines a → x ∈ m0)
         ∧ (x ∈ MinesweeperAI.safes a → x ∈ s0).

(** The agent is right about the board [b]: it has the board's dimensions,
    its two classifications are correct, and every sentence counts the
    actual mines among its cells. *)
Definition sound (b : Minesweeper.t) (a : MinesweeperAI.t) : Prop :=
  MinesweeperAI.height a = Minesweeper.height b
  ∧ MinesweeperAI.width a = Minesweeper.width b
  ∧ MinesweeperAI.mines a ⊆ Minesweeper.mines b
  ∧ MinesweeperAI.safes a ## Minesweeper.mines b
  ∧ ∀ s, s ∈ MinesweeperAI.knowledge a →
         Sentence.count s
         = Z.of_nat (size (Sentence.cells s ∩ Minesweeper.mines b)).

(** The invariant [0 ≤ count ≤ |cells|] of the data model. *)
Definition within_bounds (s : Sentence.t) : Prop :=
  0 ≤ Sentence.count s ≤ Z.of_nat (size (Sentence.cells s)).

(** The 8-neighbourhood of a cell, as the specification words it: the cells
    other than [c] whose row and column differ from those of [c] by at most
    one. *)
Definition eight_neighbour (c x : cell) : Prop :=
  x ≠ c ∧ -1 ≤ x.1 - c.1 ≤ 1 ∧ -1 ≤ x.2 - c.2 ≤ 1.

#[global] Instance eight_neighbour_dec c x : Decision (eight_neighbour c x).
Proof. unfold eight_neighbour. apply _. Defined.


(** * Properties *)


Example scenario_B :
  let ai := MinesweeperAI.add_knowledge (0,0) 0 (MinesweeperAI.init 3 3) in
  MinesweeperAI.safes ai = {[ (0,0); (0,1); (1,0); (1,1) ]}
  ∧ MinesweeperAI.mines ai = ∅.
Proof. vm_compute. split; reflexivity. Qed.

(** ** Sentences *)
Section SentenceFacts.
Import Sentence.

Lemma known_mines_Some s cs :
  known_mines s = Some cs →
  cs = cells s ∧ Z.of_nat (size (cells s)) = count s ∧ 0 < count s.
Proof.
  unfold known_mines. intros H.
  destruct (Z.eqb_spec (Z.of_nat (size (cells s))) (count s)) as [E|E];
    destruct (Z.eqb_spec (count s) 0) as [E0|E0]; simplify_eq/=.
  repeat split; [done | lia].
Qed.

Lemma known_mines_nonempty s cs : known_mines s = Some cs → cs ≠ ∅.
Proof.
  intros (-> & Hsz & Hpos)%known_mines_Some Hempty.
  rewrite Hempty, size_empty in Hsz. lia.
Qed.

(** C5: [known_mines] returns the sentence's cell set exactly when the
    number of cells equals a positive count and otherwise returns [None]
    (a falsy result); [known_safes] returns the cell set exactly when the
    count is zero and otherwise the empty set. *)
Theorem known_mines_known_safes_spec (s : Sentence.t) :
  known_mines s =
    (if decide (Z.of_nat (size (cells s)) = count s ∧ 0 < count s)
     then Some (cells s) else None)
  ∧ (truthy_opt (known_mines s) = true ↔
       Z.of_nat (size (cells s)) = count s ∧ 0 < count s)
  ∧ known_safes s = (if decide (count s = 0) then cells s else ∅).
Proof.
  assert (Hkm : known_mines s =
    (if decide (Z.of_nat (size (cells s)) = count s ∧ 0 < count s)
     then Some (cells s) else None)).
  { unfold known_mines. case_decide as Hd.
    - destruct Hd as [-> Hpos].
      rewrite Z.eqb_refl. destruct (Z.eqb_spec (count s) 0); [lia | done].
    - destruct (Z.eqb_spec (Z.of_nat (size (cells s))) (count s));
        destruct (Z.eqb_spec (count s) 0); simpl; try done.
      exfalso. apply Hd. lia. }
  split; [exact Hkm |]. split.
  - split.
    + destruct (known_mines s) as [cs|] eqn:E; [| done].
      intros _. by apply known_mines_Some in E as (_ & ? & ?).
    + intros Hd. rewrite Hkm, decide_True by done. simpl.
      apply negb_true_iff, bool_decide_eq_false.
      intros Hempty. destruct Hd as [Hsz Hpos].
      rewrite Hempty, size_empty in Hsz. lia.
  - unfold known_safes.
    destruct (decide (count s = 0)) as [Hd|Hd].
    + by rewrite Hd.
    + by destruct (Z.eqb_spec (count s) 0).
Qed.

(** C7: marking a member cell as a mine removes exactly that cell and
    lowers the count by one; marking a non-member changes nothing. *)
Theorem sentence_mark_mine_spec (c : cell) (s : Sentence.t) :
  (c ∈ cells s →
     (c ∉ cells (mark_mine c s))
     ∧ cells (mark_mine c s) = cells s ∖ {[c]}
     ∧ count (mark_mine c s) = count s - 1)
  ∧ (c ∉ cells s →
     cells (mark_mine c s) = cells s ∧ count (mark_mine c s) = count s).
Proof.
  unfold mark_mine. split; intros Hc.
  - rewrite decide_True by done. simpl. split; [set_solver | done].
  - by rewrite decide_False.
Qed.

Lemma sentence_mark_mine_spec_witness :
  let s := Sentence.mk {[ (0, 1); (1, 1) ]} 1 in
  ((0, 1) ∈ cells s ∧ (2, 2) ∉ cells s)
  ∧ (count (mark_mine (0, 1) s) = 0 ∧ mark_mine (2, 2) s = s).
Proof.
  intros s. split.
  - split; [by vm_compute | by vm_compute].
  - destruct (sentence_mark_mine_spec (0, 1) s) as [Hin _].
    destruct (sentence_mark_mine_spec (2, 2) s) as [_ Hout].
    split.
    + apply Hin. by vm_compute.
    + reflexivity.
Defined.

Lemma cells_mark_mine c s :
  cells (mark_mine c s) = cells s ∖ {[c]}.
Proof. unfold mark_mine. case_decide; simpl; set_solver. Qed.

Lemma cells_mark_safe c s :
  cells (mark_safe c s) = cells s ∖ {[c]}.
Proof. unfold mark_safe. case_decide; simpl; set_solver. Qed.

Lemma count_mark_safe c s : count (mark_safe c s) = count s.
Proof. unfold mark_safe. by case_decide. Qed.

End SentenceFacts.

(** ** Move selection *)
Section MoveFacts.
Import MinesweeperAI.

Lemma in_range_spec h w (c : cell) :
  in_range h w c = true ↔ 0 ≤ c.1 < h ∧ 0 ≤ c.2 < w.
Proof.
  unfold in_range. rewrite !andb_true_iff.
  rewrite !Z.leb_le, !Z.ltb_lt. lia.
Qed.

Lemma elem_of_candidate_moves ai (c : cell) :
  c ∈ candidate_moves ai ↔
  in_range (height ai) (width ai) c = true
  ∧ (c ∉ moves_made ai) ∧ (c ∉ mines ai).
Proof.
  unfold candidate_moves. rewrite in_range_spec, list_elem_of_bind. split.
  - intros (i & (j & Hc & Hj)%list_elem_of_bind & Hi).
    apply elem_of_seqZ in Hi, Hj.
    destruct (bool_decide ((i, j) ∉ moves_made ai)) eqn:E1;
      destruct (bool_decide ((i, j) ∉ mines ai)) eqn:E2; simpl in Hc;
      try by apply elem_of_nil in Hc.
    apply list_elem_of_singleton in Hc as ->.
    apply bool_decide_eq_true in E1, E2. simpl. split; [lia | done].
  - intros (Hr & Hm & Hn). destruct c as [i j]. simpl in Hr.
    exists i. split; [| apply elem_of_seqZ; lia].
    apply list_elem_of_bind. exists j. split; [| apply elem_of_seqZ; lia].
    rewrite !bool_decide_eq_true_2 by done. simpl.
    by apply list_elem_of_singleton.
Qed.

Lemma make_safe_move_Some ai c :
  make_safe_move ai = Some c → c ∈ safes ai ∧ (c ∉ moves_made ai).
Proof.
  unfold make_safe_move. intros [Hin Hb]%find_some. split.
  - by apply list_elem_of_In, elem_of_elements in Hin.
  - by apply bool_decide_eq_true in Hb.
Qed.

Lemma make_safe_move_None ai :
  make_safe_move ai = None ↔ safes ai ⊆ moves_made ai.
Proof.
  split.
  - unfold make_safe_move. intros Hnone c Hc.
    assert (In c (elements (safes ai))) as Hin
      by by apply list_elem_of_In, elem_of_elements.
    apply (find_none _ _ Hnone c) in Hin.
    apply bool_decide_eq_false in Hin. by apply dec_stable.
  - intros Hsub. destruct (make_safe_move ai) as [c|] eqn:E; [| done].
    apply make_safe_move_Some in E as [? ?]. set_solver.
Qed.

Lemma make_random_move_Some pick ai c :
  make_random_move pick ai = Some c → c ∈ candidate_moves ai.
Proof.
  unfold make_random_move. case_bool_decide; [| done].
  apply list_elem_of_lookup_2.
Qed.

Lemma make_random_move_None pick ai :
  make_random_move pick ai = None ↔ candidate_moves ai = [].
Proof.
  unfold make_random_move. split.
  - case_bool_decide as Hlen.
    + intros Hnone%lookup_ge_None.
      pose proof (Nat.mod_upper_bound pick _ Hlen). lia.
    + intros _. by destruct (candidate_moves ai).
  - intros ->. done.
Qed.

(** C8: [make_safe_move] returns a known-safe cell not yet played, and
    [None] exactly when every known-safe cell has been played;
    [make_random_move] returns a board cell that is neither played nor a
    known mine, and [None] exactly when no such cell exists, whatever
    element [random.choice] draws. *)
Theorem move_policy_spec (ai : MinesweeperAI.t) :
  (∀ c, make_safe_move ai = Some c → c ∈ safes ai ∧ (c ∉ moves_made ai))
  ∧ (make_safe_move ai = None ↔ safes ai ⊆ moves_made ai)
  ∧ (∀ pick c, make_random_move pick ai = Some c →
       in_range (height ai) (width ai) c = true
       ∧ (c ∉ moves_made ai) ∧ (c ∉ mines ai))
  ∧ (∀ pick, make_random_move pick ai = None ↔
       ∀ c, in_range (height ai) (width ai) c = true →
            c ∈ moves_made ai ∪ mines ai).
Proof.
  split; [apply make_safe_move_Some |].
  split; [apply make_safe_move_None |].
  split.
  - intros pick c Hc%make_random_move_Some.
    by apply elem_of_candidate_moves.
  - intros pick. rewrite make_random_move_None. split.
    + intros Hnil c Hc.
      destruct (decide (c ∈ moves_made ai ∪ mines ai)) as [|Hn]; [done |].
      assert (c ∈ candidate_moves ai) as Hin
        by (apply elem_of_candidate_moves; set_solver).
      rewrite Hnil in Hin. by apply elem_of_nil in Hin.
    + intros Hall. destruct (candidate_moves ai) as [|c l] eqn:E; [done |].
      assert (c ∈ candidate_moves ai) as Hin by (rewrite E; left).
      apply elem_of_candidate_moves in Hin as (Hr & ? & ?).
      specialize (Hall c Hr). set_solver.
Qed.

End MoveFacts.

(** ** Subset elimination *)
Section InferFacts.
Import MinesweeperAI.

Lemma infer_pair_step kb s1 new s2 :
  NoDup new →
  NoDup (infer_pair kb s1 new s2)
  ∧ ∀ t, t ∈ infer_pair kb s1 new s2 ↔
         t ∈ new ∨ ((t ∉ kb) ∧ s1 ≠ s2
                    ∧ Sentence.cells s1 ⊆ Sentence.cells s2
                    ∧ t = inferred s1 s2).
Proof.
  intros Hnd. unfold infer_pair.
  destruct (bool_decide (s1 ≠ s2)) eqn:E1;
    destruct (bool_decide (Sentence.cells s1 ⊆ Sentence.cells s2)) eqn:E2;
    simpl;
    try (apply bool_decide_eq_true in E1);
    try (apply bool_decide_eq_false in E1);
    try (apply bool_decide_eq_true in E2);
    try (apply bool_decide_eq_false in E2);
    try (split; [done | intros t; split; [by left | by intros [?|(?&?&?&?)]]]).
  destruct (bool_decide (inferred s1 s2 ∉ kb)) eqn:E3;
    destruct (bool_decide (inferred s1 s2 ∉ new)) eqn:E4; simpl;
    try (apply bool_decide_eq_true in E3);
    try (apply bool_decide_eq_false in E3);
    try (apply bool_decide_eq_true in E4);
    try (apply bool_decide_eq_false in E4).
  - split.
    + apply NoDup_app. split; [done |]. split; [| apply NoDup_singleton].
      intros x Hx ->%list_elem_of_singleton. done.
    + intros t. rewrite elem_of_app, list_elem_of_singleton. split.
      * intros [?| ->]; [by left | by right].
      * intros [?|(_ & _ & _ & ->)]; [by left | by right].
  - split; [done |]. intros t. split; [by left |].
    intros [?|(_ & _ & _ & ->)]; [done | by apply dec_stable].
  - split; [done |]. intros t. split; [by left |].
    intros [?|(Hk & _ & _ & ->)]; done.
  - split; [done |]. intros t. split; [by left |].
    intros [?|(Hk & _ & _ & ->)]; done.
Qed.

Lemma infer_inner_fold kb s1 l new :
  NoDup new →
  NoDup (foldl (infer_pair kb s1) new l)
  ∧ ∀ t, t ∈ foldl (infer_pair kb s1) new l ↔
         t ∈ new ∨ ((t ∉ kb) ∧ ∃ s2, s2 ∈ l ∧ s1 ≠ s2
                    ∧ Sentence.cells s1 ⊆ Sentence.cells s2
                    ∧ t = inferred s1 s2).
Proof.
  revert new. induction l as [|s2 l IH]; intros new Hnd; simpl.
  - split; [done |]. intros t. split; [by left |].
    intros [?|(_ & s2 & []%elem_of_nil & _)]. done.
  - destruct (infer_pair_step kb s1 new s2 Hnd) as [Hnd1 Hstep].
    destruct (IH _ Hnd1) as [Hnd2 Hrest]. split; [done |].
    intros t. rewrite Hrest, Hstep. split.
    + intros [[?|(? & ? & ? & ?)]|(? & s & ? & ? & ? & ?)].
      * by left.
      * right. split; [done |]. exists s2. by split; [left |].
      * right. split; [done |]. exists s. by split; [right |].
    + intros [?|(? & s & [-> | ?]%elem_of_cons & ? & ? & ?)].
      * by left; left.
      * by left; right.
      * right. split; [done |]. by exists s.
Qed.

Lemma infer_outer_fold kb l new :
  NoDup new →
  NoDup (foldl (λ new s1, foldl (infer_pair kb s1) new kb) new l)
  ∧ ∀ t, t ∈ foldl (λ new s1, foldl (infer_pair kb s1) new kb) new l ↔
         t ∈ new ∨ ((t ∉ kb) ∧ ∃ s1 s2, s1 ∈ l ∧ s2 ∈ kb ∧ s1 ≠ s2
                    ∧ Sentence.cells s1 ⊆ Sentence.cells s2
                    ∧ t = inferred s1 s2).
Proof.
  revert new. induction l as [|s1 l IH]; intros new Hnd; simpl.
  - split; [done |]. intros t. split; [by left |].
    intros [?|(_ & s1 & s2 & []%elem_of_nil & _)]. done.
  - destruct (infer_inner_fold kb s1 kb new Hnd) as [Hnd1 Hin].
    destruct (IH _ Hnd1) as [Hnd2 Hrest]. split; [done |].
    intros t. rewrite Hrest, Hin. split.
    + intros [[?|(? & s2 & ? & ? & ? & ?)]|(? & s & s2 & ? & ? & ? & ? & ?)].
      * by left.
      * right. split; [done |]. exists s1, s2. by split; [left |].
      * right. split; [done |]. exists s, s2. by split; [right |].
    + intros [?|(? & s & s2 & [-> | ?]%elem_of_cons & ? & ? & ? & ?)].
      * by left; left.
      * left; right. split; [done |]. by exists s2.
      * right. split; [done |]. by exists s, s2.
Qed.

Lemma elem_of_new_knowledge kb t :
  t ∈ new_knowledge kb ↔ (t ∉ kb) ∧ ∃ s1 s2, derives kb s1 s2 t.
Proof.
  unfold new_knowledge, derives.
  destruct (infer_outer_fold kb kb [] (NoDup_nil_2)) as [_ ->]. split.
  - intros [[]%elem_of_nil|(? & s1 & s2 & ?)]. split; [done |].
    by exists s1, s2.
  - intros (? & s1 & s2 & ?). right. split; [done |]. by exists s1, s2.
Qed.

Lemma new_knowledge_cells kb t :
  t ∈ new_knowledge kb →
  ∃ s2, s2 ∈ kb ∧ Sentence.cells t ⊆ Sentence.cells s2.
Proof.
  intros (_ & s1 & s2 & _ & Hs2 & _ & _ & ->)%elem_of_new_knowledge.
  exists s2. split; [done |]. simpl. set_solver.
Qed.

Lemma NoDup_new_knowledge kb : NoDup (new_knowledge kb).
Proof. apply (infer_outer_fold kb kb [] (NoDup_nil_2)). Qed.

(** C4: one run of the subset-elimination pass appends to the knowledge
    base exactly the sentences [(B.cells - A.cells, B.count - A.count)]
    for pairs [A ≠ B] of the knowledge base with [A.cells ⊆ B.cells] that
    are not already in the knowledge base, each of them once; the existing
    sentences and the three cell sets are left as they were. *)
Theorem infer_new_sentences_spec (ai : MinesweeperAI.t) :
  let kb := knowledge ai in
  knowledge (infer_new_sentences ai) = kb ++ new_knowledge kb
  ∧ NoDup (new_knowledge kb)
  ∧ (∀ t, t ∈ new_knowledge kb ↔
          (t ∉ kb) ∧ ∃ A B, A ∈ kb ∧ B ∈ kb ∧ A ≠ B
                            ∧ Sentence.cells A ⊆ Sentence.cells B
                            ∧ t = Sentence.mk
                                    (Sentence.cells B ∖ Sentence.cells A)
                                    (Sentence.count B - Sentence.count A))
  ∧ mines (infer_new_sentences ai) = mines ai
  ∧ safes (infer_new_sentences ai) = safes ai
  ∧ moves_made (infer_new_sentences ai) = moves_made ai.
Proof.
  intros kb. split; [done |]. split; [apply NoDup_new_knowledge |].
  split; [| done]. intros t. apply elem_of_new_knowledge.
Qed.

(** End-to-end scenario C of the specification. *)
Example scenario_C :
  new_knowledge [Sentence.mk {[ (0,0); (0,1); (0,2) ]} 1;
                 Sentence.mk {[ (0,0); (0,1) ]} 1]
  = [Sentence.mk {[ (0,2) ]} 0].
Proof. by vm_compute. Qed.

(** Whatever a pair of sentences of the knowledge base yields is in the
    knowledge base after one pass. *)
Lemma inferred_after_pass kb A B :
  A ∈ kb → B ∈ kb → A ≠ B → Sentence.cells A ⊆ Sentence.cells B →
  inferred A B ∈ kb ++ new_knowledge kb.
Proof.
  intros HA HB Hne Hsub. apply elem_of_app.
  destruct (decide (inferred A B ∈ kb)) as [|Hn]; [by left | right].
  apply elem_of_new_knowledge. split; [done |]. by exists A, B.
Qed.

(** A second pass in a row can add sentences: here after three truthful
    reveals on the 3x3 board whose mines are (0,2) and (2,0). *)
Lemma infer_twice_counterexample :
  let ai := run (MinesweeperAI.init 3 3)
              [AddKnowledge (2,1) 1; AddKnowledge (0,1) 1;
               AddKnowledge (1,1) 2] in
  let once := infer_new_sentences ai in
  let twice := infer_new_sentences once in
  knowledge once
    = knowledge ai ++ [Sentence.mk {[ (1,0); (1,2) ]} 0]
  ∧ knowledge twice
    = knowledge once ++ [Sentence.mk {[ (0,0); (0,2); (2,0); (2,2) ]} 2].
Proof. vm_compute. split; reflexivity. Qed.

(** C3 (amended): a second pass in a row never adds a sentence that a
    pair of sentences present before the first pass yields; every sentence
    it adds comes from a pair in which at least one sentence was added by
    the first pass.  In particular a pass that adds nothing is followed by
    passes that add nothing. *)
Theorem infer_twice_only_from_new (ai : MinesweeperAI.t) :
  let kb := knowledge ai in
  let kb1 := knowledge (infer_new_sentences ai) in
  (∀ t, t ∈ new_knowledge kb1 →
     (t ∉ kb1)
     ∧ ∃ A B, derives kb1 A B t
              ∧ (A ∈ new_knowledge kb ∨ B ∈ new_knowledge kb))
  ∧ (new_knowledge kb = [] → new_knowledge kb1 = []).
Proof.
  intros kb kb1.
  assert (Hfirst : ∀ t, t ∈ new_knowledge kb1 →
     (t ∉ kb1)
     ∧ ∃ A B, derives kb1 A B t
              ∧ (A ∈ new_knowledge kb ∨ B ∈ new_knowledge kb)).
  { intros t (Hnot & A & B & Hd)%elem_of_new_knowledge.
    split; [done |]. exists A, B. split; [done |].
    destruct Hd as (HA & HB & Hne & Hsub & ->).
    subst kb1. simpl in *. fold kb in HA, HB, Hnot.
    apply elem_of_app in HA as [HA|HA]; [| by left].
    apply elem_of_app in HB as [HB|HB]; [| by right].
    destruct Hnot. by apply inferred_after_pass. }
  split; [exact Hfirst |].
  intros Hnil. destruct (new_knowledge kb1) as [|t l] eqn:E; [done |].
  assert (Ht : t ∈ t :: l) by left.
  destruct (Hfirst t Ht) as (_ & A & B & _ & [HA|HB]).
  - rewrite Hnil in HA. by apply elem_of_nil in HA.
  - rewrite Hnil in HB. by apply elem_of_nil in HB.
Qed.

Lemma infer_twice_only_from_new_witness :
  let ai := run (MinesweeperAI.init 3 3)
              [AddKnowledge (2,1) 1; AddKnowledge (0,1) 1;
               AddKnowledge (1,1) 2] in
  let kb := knowledge ai in
  let kb1 := knowledge (infer_new_sentences ai) in
  let t := Sentence.mk {[ (0,0); (0,2); (2,0); (2,2) ]} 2 in
  t ∈ new_knowledge kb1
  ∧ ∃ A B, derives kb1 A B t
           ∧ (A ∈ new_knowledge kb ∨ B ∈ new_knowledge kb).
Proof.
  intros ai kb kb1 t.
  assert (Hin : t ∈ new_knowledge kb1).
  { refine (bool_decide_unpack _ _). by vm_compute. }
  split; [exact Hin |].
  exact (proj2 (proj1 (infer_twice_only_from_new ai) t Hin)).
Defined.

End InferFacts.

(** ** The neighbourhood scan and the new sentence *)
Section RecordFacts.
Import MinesweeperAI.

Lemma NoDup_offsets : NoDup offsets.
Proof. refine (bool_decide_unpack _ _). by vm_compute. Qed.

Lemma NoDup_neighbors c : NoDup (neighbors c).
Proof.
  unfold neighbors. apply NoDup_fmap_2_strong; [| apply NoDup_offsets].
  intros [a1 a2] [b1 b2] _ _ Heq. simpl in Heq.
  injection Heq as H1 H2. f_equal; lia.
Qed.


Lemma scan_fold ai l acc :
  foldl (scan_step ai) acc l =
  (acc.1 + Z.of_nat (length (filter (λ x, x ∈ mines ai) l)),
   acc.2 ++ filter (λ x, in_range (height ai) (width ai) x = true
                         ∧ (x ∉ safes ai) ∧ (x ∉ mines ai)) l).
Proof.
  revert acc. induction l as [|x l IH]; intros [cm und]; simpl.
  - f_equal; [lia | by rewrite app_nil_r].
  - rewrite IH. unfold scan_step. cbn [fst snd]. rewrite !filter_cons.
    f_equal.
    + case_bool_decide.
      * rewrite decide_True by done. cbn [length]. lia.
      * rewrite decide_False by done. lia.
    + destruct (decide (in_range (height ai) (width ai) x = true
                        ∧ (x ∉ safes ai) ∧ (x ∉ mines ai)))
        as [(Hr & Hs & Hm)|Hn].
      * rewrite Hr, !bool_decide_eq_true_2 by done. cbn [andb].
        by rewrite <- app_assoc.
      * destruct (in_range (height ai) (width ai) x); cbn [andb]; [| done].
        do 2 (case_bool_decide; cbn [andb]; [| done]).
        by destruct Hn.
Qed.

Lemma scan_spec ai c :
  scan ai c =
  (Z.of_nat (length (filter (λ x, x ∈ mines ai) (neighbors c))),
   filter (λ x, in_range (height ai) (width ai) x = true
                ∧ (x ∉ safes ai) ∧ (x ∉ mines ai)) (neighbors c)).
Proof. unfold scan. by rewrite scan_fold. Qed.

End RecordFacts.

(** ** The propagation pass *)
Section PropagateFacts.
Import MinesweeperAI.

Lemma size_remove_member (X : gset cell) (c : cell) :
  c ∈ X → Z.of_nat (size (X ∖ {[c]})) = Z.of_nat (size X) - 1.
Proof.
  intros Hc. assert (Hsub : ({[c]} : gset cell) ⊆ X) by set_solver.
  rewrite size_difference by done.
  apply subseteq_size in Hsub. rewrite size_singleton in *. lia.
Qed.

Lemma knowledge_mark_mine c a :
  knowledge (mark_mine c a) = Sentence.mark_mine c <$> knowledge a.
Proof. done. Qed.

Lemma knowledge_mark_safe c a :
  knowledge (mark_safe c a) = Sentence.mark_safe c <$> knowledge a.
Proof. done. Qed.

(** An induction principle for the pass: a property of the state survives
    it as soon as it survives marking as a mine a cell of a sentence whose
    count equals its size, and marking as safe a cell of a sentence whose
    count is zero.  These are the only marks the pass performs: the cells
    of the snapshot taken by [.copy()] are still cells of the sentence
    when their turn comes. *)
Section Induction.
Variable P : MinesweeperAI.t → Prop.
Hypothesis Hmine : ∀ a s c,
  P a → s ∈ knowledge a → c ∈ Sentence.cells s →
  Z.of_nat (size (Sentence.cells s)) = Sentence.count s →
  P (mark_mine c a).
Hypothesis Hsafe : ∀ a s c,
  P a → s ∈ knowledge a → c ∈ Sentence.cells s →
  Sentence.count s = 0 →
  P (mark_safe c a).

Lemma mark_mines_ind i l a s :
  NoDup l → P a → knowledge a !! i = Some s →
  (∀ c, c ∈ l → c ∈ Sentence.cells s) →
  Z.of_nat (size (Sentence.cells s)) = Sentence.count s →
  P (foldl (λ a c, mark_mine c a) a l).
Proof.
  revert a s. induction l as [|c l IH]; intros a s Hnd HP Hi Hin Hsz;
    simpl; [done |].
  apply NoDup_cons in Hnd as [Hc Hnd].
  assert (Hcs : c ∈ Sentence.cells s) by (apply Hin; left).
  apply (IH _ (Sentence.mark_mine c s)); [done | | | |].
  - eapply Hmine; eauto. by eapply list_elem_of_lookup_2.
  - by rewrite knowledge_mark_mine, list_lookup_fmap, Hi.
  - intros c' Hc'. rewrite cells_mark_mine.
    apply elem_of_difference. split; [apply Hin; by right |].
    intros ->%elem_of_singleton. done.
  - unfold Sentence.mark_mine. rewrite decide_True by done. simpl.
    rewrite size_remove_member by done. lia.
Qed.

Lemma mark_safes_ind i l a s :
  NoDup l → P a → knowledge a !! i = Some s →
  (∀ c, c ∈ l → c ∈ Sentence.cells s) →
  Sentence.count s = 0 →
  P (foldl (λ a c, mark_safe c a) a l).
Proof.
  revert a s. induction l as [|c l IH]; intros a s Hnd HP Hi Hin Hz;
    simpl; [done |].
  apply NoDup_cons in Hnd as [Hc Hnd].
  assert (Hcs : c ∈ Sentence.cells s) by (apply Hin; left).
  apply (IH _ (Sentence.mark_safe c s)); [done | | | |].
  - eapply Hsafe; eauto. by eapply list_elem_of_lookup_2.
  - by rewrite knowledge_mark_safe, list_lookup_fmap, Hi.
  - intros c' Hc'. rewrite cells_mark_safe.
    apply elem_of_difference. split; [apply Hin; by right |].
    intros ->%elem_of_singleton. done.
  - by rewrite count_mark_safe.
Qed.

Lemma propagate_at_ind a i : P a → P (propagate_at a i).
Proof.
  intros HP. unfold propagate_at.
  destruct (knowledge a !! i) as [s|] eqn:Hi; [| done].
  set (a1 := if truthy_opt (Sentence.known_mines s)
             then foldl (λ a c, mark_mine c a) a
                    (elements (default ∅ (Sentence.known_mines s)))
             else a).
  assert (HP1 : P a1).
  { subst a1. destruct (Sentence.known_mines s) as [cs|] eqn:Hkm;
      simpl; [| done].
    destruct (negb (bool_decide (cs = ∅))); [| done].
    apply known_mines_Some in Hkm as (-> & Hsz & _).
    apply (mark_mines_ind i _ a s); try done.
    - apply NoDup_elements.
    - intros c. by rewrite elem_of_elements. }
  destruct (knowledge a1 !! i) as [s'|] eqn:Hi'; [| done].
  unfold truthy_set, Sentence.known_safes.
  destruct (Z.eqb_spec (Sentence.count s') 0) as [Hz|Hz].
  - destruct (negb (bool_decide (Sentence.cells s' = ∅))); [| done].
    apply (mark_safes_ind i _ a1 s'); try done.
    + apply NoDup_elements.
    + intros c. by rewrite elem_of_elements.
  - by rewrite bool_decide_eq_true_2.
Qed.

Lemma propagate_ind a : P a → P (propagate a).
Proof.
  unfold propagate. generalize (seq 0 (length (knowledge a))).
  intros l. revert a. induction l as [|i l IH]; intros a HP; simpl;
    [done |].
  by apply IH, propagate_at_ind.
Qed.
End Induction.


Lemma propagate_height a : height (propagate a) = height a.
Proof. by apply (propagate_ind (λ x, height x = height a)). Qed.

Lemma propagate_width a : width (propagate a) = width a.
Proof. by apply (propagate_ind (λ x, width x = width a)). Qed.


Lemma propagate_mines_mono a : mines a ⊆ mines (propagate a).
Proof.
  apply (propagate_ind (λ x, mines a ⊆ mines x)); [| | done];
    intros x s c Hx _ _ _; simpl; set_solver.
Qed.

Lemma propagate_safes_mono a : safes a ⊆ safes (propagate a).
Proof.
  apply (propagate_ind (λ x, safes a ⊆ safes x)); [| | done];
    intros x s c Hx _ _ _; simpl; set_solver.
Qed.


End PropagateFacts.

(** ** What [add_knowledge] records *)
Section AddKnowledgeFacts.
Import MinesweeperAI.

Lemma elem_of_cells_init (l : list cell) n x :
  x ∈ Sentence.cells (Sentence.init l n) ↔ x ∈ l.
Proof. unfold Sentence.init. simpl. apply elem_of_list_to_set. Qed.

Lemma record_reveal_eq c n a :
  record_reveal c n a =
  {| height := height a; width := width a;
     moves_made := {[c]} ∪ moves_made a;
     mines := mines a;
     safes := {[c]} ∪ safes a;
     knowledge :=
       (Sentence.mark_safe c <$> knowledge a)
       ++ [Sentence.init
             (filter (λ x, in_range (height a) (width a) x = true
                           ∧ (x ∉ {[c]} ∪ safes a) ∧ (x ∉ mines a))
                     (neighbors c))
             (n - Z.of_nat (length (filter (λ x, x ∈ mines a)
                                           (neighbors c))))] |}.
Proof. unfold record_reveal. by rewrite scan_spec. Qed.

(** End-to-end scenario A of the specification: on a 1x2 board whose mine
    is (0,1), revealing (0,0) makes the engine mark (0,1) as a mine. *)
Example scenario_A :
  Minesweeper.nearby_mines (Minesweeper.mk 1 2 {[ (0,1) ]}) (0,0) = Some 1
  ∧ mines (add_knowledge (0,0) 1 (MinesweeperAI.init 1 2)) = {[ (0,1) ]}.
Proof. vm_compute. split; reflexivity. Qed.

End AddKnowledgeFacts.

(** ** Sentences never mention a classified cell *)
Section CleanFacts.
Import MinesweeperAI.

Lemma clean_mark_mine c a : clean a → clean (mark_mine c a).
Proof.
  intros Hc s (s0 & -> & Hs0)%list_elem_of_fmap. simpl.
  rewrite cells_mark_mine. specialize (Hc s0 Hs0). set_solver.
Qed.

Lemma clean_mark_safe c a : clean a → clean (mark_safe c a).
Proof.
  intros Hc s (s0 & -> & Hs0)%list_elem_of_fmap. simpl.
  rewrite cells_mark_safe. specialize (Hc s0 Hs0). set_solver.
Qed.

Lemma clean_member a s c :
  clean a → s ∈ knowledge a → c ∈ Sentence.cells s →
  (c ∉ mines a) ∧ (c ∉ safes a).
Proof. intros Hc Hs Hcs. specialize (Hc s Hs). set_solver. Qed.

Lemma clean_record_reveal c n a : clean a → clean (record_reveal c n a).
Proof.
  intros Hc s. rewrite record_reveal_eq. simpl.
  intros [(s0 & -> & Hs0)%list_elem_of_fmap | ->%list_elem_of_singleton]
    %elem_of_app.
  - rewrite cells_mark_safe. specialize (Hc s0 Hs0). set_solver.
  - intros x Hx [Hm|Hs]%elem_of_union;
      apply elem_of_cells_init, list_elem_of_filter in Hx
        as [(_ & ? & ?) _]; done.
Qed.

Lemma clean_propagate a : clean a → clean (propagate a).
Proof.
  apply propagate_ind; intros;
    [by apply clean_mark_mine | by apply clean_mark_safe].
Qed.

Lemma clean_infer_new_sentences a :
  clean a → clean (infer_new_sentences a).
Proof.
  intros Hc s. unfold infer_new_sentences. simpl.
  intros [Hs | (_ & A & B & _ & HB & _ & _ & ->)%elem_of_new_knowledge]
    %elem_of_app; [by apply Hc |].
  specialize (Hc B HB). simpl. set_solver.
Qed.

Lemma clean_add_knowledge c n a : clean a → clean (add_knowledge c n a).
Proof.
  intros Hc.
  by apply clean_infer_new_sentences, clean_propagate, clean_record_reveal.
Qed.

Lemma disjoint_propagate a :
  clean a → disjoint_sets a → disjoint_sets (propagate a).
Proof.
  intros Hc Hd.
  cut (clean (propagate a) ∧ disjoint_sets (propagate a)); [tauto |].
  apply (propagate_ind (λ x, clean x ∧ disjoint_sets x)); [| | done].
  - intros x s k [Hcx Hdx] Hs Hk _. split; [by apply clean_mark_mine |].
    destruct (clean_member x s k Hcx Hs Hk).
    unfold disjoint_sets in *. simpl. set_solver.
  - intros x s k [Hcx Hdx] Hs Hk _. split; [by apply clean_mark_safe |].
    destruct (clean_member x s k Hcx Hs Hk).
    unfold disjoint_sets in *. simpl. set_solver.
Qed.

Lemma disjoint_add_knowledge c n a :
  clean a → disjoint_sets a → c ∉ mines a →
  disjoint_sets (add_knowledge c n a).
Proof.
  intros Hc Hd Hcm. unfold add_knowledge, disjoint_sets. simpl.
  apply disjoint_propagate; [by apply clean_record_reveal |].
  unfold disjoint_sets in *. simpl. set_solver.
Qed.

Lemma mines_add_knowledge_mono c n a :
  mines a ⊆ mines (add_knowledge c n a).
Proof.
  unfold add_knowledge. simpl.
  etrans; [| apply propagate_mines_mono]. done.
Qed.

Lemma safes_add_knowledge_mono c n a :
  safes a ⊆ safes (add_knowledge c n a).
Proof.
  unfold add_knowledge. simpl.
  etrans; [| apply propagate_safes_mono]. simpl. set_solver.
Qed.

End CleanFacts.

(** ** Mines and safes stay apart *)
Section DisjointFacts.
Import MinesweeperAI.

Lemma clean_init h w : clean (MinesweeperAI.init h w).
Proof. intros s []%elem_of_nil. Qed.

Lemma clean_exec a k : clean a → clean (exec a k).
Proof.
  destruct k; simpl; intros Hc; try done;
    [by apply clean_add_knowledge | by apply clean_mark_mine
     | by apply clean_mark_safe].
Qed.

Lemma clean_run a ks : clean a → clean (run a ks).
Proof.
  revert a. induction ks as [|k ks IH]; intros a Hc; [done |].
  by apply IH, clean_exec.
Qed.

Lemma disjoint_exec a k :
  clean a → disjoint_sets a → admissible a k = true →
  disjoint_sets (exec a k).
Proof.
  intros Hc Hd Hk. destruct k as [c n|c|c| |pick]; simpl in *; try done;
    apply bool_decide_eq_true in Hk.
  - by apply disjoint_add_knowledge.
  - unfold disjoint_sets in *. simpl. set_solver.
  - unfold disjoint_sets in *. simpl. set_solver.
Qed.

Lemma disjoint_run a ks :
  clean a → disjoint_sets a → admissible_trace a ks = true →
  disjoint_sets (run a ks).
Proof.
  revert a. induction ks as [|k ks IH]; intros a Hc Hd Hks; [done |].
  simpl in Hks. apply andb_true_iff in Hks as [Hk Hks].
  apply IH; [by apply clean_exec | by apply disjoint_exec | done].
Qed.

Lemma exec_mono a k :
  mines a ⊆ mines (exec a k) ∧ safes a ⊆ safes (exec a k).
Proof.
  destruct k; simpl; try done.
  - split; [apply mines_add_knowledge_mono | apply safes_add_knowledge_mono].
  - set_solver.
  - set_solver.
Qed.

Lemma run_mono a ks :
  mines a ⊆ mines (run a ks) ∧ safes a ⊆ safes (run a ks).
Proof.
  revert a. induction ks as [|k ks IH]; intros a; [done |].
  destruct (exec_mono a k), (IH (exec a k)). simpl. set_solver.
Qed.

Lemma admissible_trace_app a ks ks' :
  admissible_trace a (ks ++ ks') =
  admissible_trace a ks && admissible_trace (run a ks) ks'.
Proof.
  revert a. induction ks as [|k ks IH]; intros a; [done |].
  simpl. by rewrite IH, andb_assoc.
Qed.

(** Nothing stops a driver from classifying one cell both ways, through the
    marking operations or through [add_knowledge] alone. *)
Lemma mines_safes_counterexample :
  let ai := run (MinesweeperAI.init 8 8) [MarkMine (0,0); MarkSafe (0,0)] in
  let ai' := run (MinesweeperAI.init 2 2)
               [AddKnowledge (0,0) 3; AddKnowledge (0,1) 2] in
  ((0,0) ∈ mines ai ∧ (0,0) ∈ safes ai)
  ∧ ((0,1) ∈ mines ai' ∧ (0,1) ∈ safes ai').
Proof. by vm_compute. Qed.

(** C1 (amended): along every sequence of calls from a fresh agent in which
    no cell of [mines] is revealed or marked safe and no cell of [safes] is
    marked as a mine, [mines] and [safes] are disjoint in every state
    reached, both sets only grow, and a cell of one never enters the
    other. *)
Theorem mines_safes_disjoint (h w : Z) (ks ks' : list call) :
  admissible_trace (MinesweeperAI.init h w) (ks ++ ks') = true →
  let s := run (MinesweeperAI.init h w) ks in
  let s' := run (MinesweeperAI.init h w) (ks ++ ks') in
  mines s' ∩ safes s' = ∅
  ∧ (∀ c, c ∈ mines s → c ∈ mines s' ∧ (c ∉ safes s'))
  ∧ (∀ c, c ∈ safes s → c ∈ safes s' ∧ (c ∉ mines s')).
Proof.
  intros Hadm s s'.
  assert (Hd : disjoint_sets s').
  { apply disjoint_run; [apply clean_init | | done].
    unfold disjoint_sets. simpl. set_solver. }
  assert (Hs' : s' = run s ks') by (subst s s'; unfold run; apply foldl_app).
  destruct (run_mono s ks') as [Hm Hs]. rewrite <- Hs' in Hm, Hs.
  unfold disjoint_sets in Hd. set_solver.
Qed.

Lemma mines_safes_disjoint_witness :
  let ks := [AddKnowledge (0,1) 1; AddKnowledge (0,0) 1] in
  let ks' := [MakeSafeMove; AddKnowledge (1,1) 1; MarkMine (1,0)] in
  admissible_trace (MinesweeperAI.init 2 3) (ks ++ ks') = true
  ∧ mines (run (MinesweeperAI.init 2 3) (ks ++ ks'))
    ∩ safes (run (MinesweeperAI.init 2 3) (ks ++ ks')) = ∅.
Proof.
  intros ks ks'.
  assert (H : admissible_trace (MinesweeperAI.init 2 3) (ks ++ ks') = true)
    by (vm_compute; reflexivity).
  split; [exact H |].
  exact (proj1 (mines_safes_disjoint 2 3 ks ks' H)).
Defined.

End DisjointFacts.

(** ** One propagation pass, then one elimination pass *)
Section SinglePassFacts.
Import MinesweeperAI.

Lemma unmarked_mark_mine m0 s0 c a :
  unmarked_since m0 s0 a → unmarked_since m0 s0 (mark_mine c a).
Proof.
  intros Hu s x (s1 & -> & Hs1)%list_elem_of_fmap. simpl.
  rewrite cells_mark_mine. intros [Hx Hne]%elem_of_difference.
  specialize (Hu s1 x Hs1 Hx). set_solver.
Qed.

Lemma unmarked_mark_safe m0 s0 c a :
  unmarked_since m0 s0 a → unmarked_since m0 s0 (mark_safe c a).
Proof.
  intros Hu s x (s1 & -> & Hs1)%list_elem_of_fmap. simpl.
  rewrite cells_mark_safe. intros [Hx Hne]%elem_of_difference.
  specialize (Hu s1 x Hs1 Hx). set_solver.
Qed.

Lemma unmarked_record_reveal c n a :
  unmarked_since (mines a) (safes a) (record_reveal c n a).
Proof.
  intros s x. rewrite record_reveal_eq. simpl.
  intros [(s1 & -> & Hs1)%list_elem_of_fmap | ->%list_elem_of_singleton]
    %elem_of_app.
  - rewrite cells_mark_safe. set_solver.
  - intros (_ & ? & ?)%elem_of_cells_init%list_elem_of_filter%proj1. done.
Qed.

Lemma unmarked_propagate m0 s0 a :
  unmarked_since m0 s0 a → unmarked_since m0 s0 (propagate a).
Proof.
  apply propagate_ind; intros;
    [by apply unmarked_mark_mine | by apply unmarked_mark_safe].
Qed.

(** C2: [add_knowledge] is the recording step followed by one propagation
    pass and then one elimination pass, and the elimination pass leaves
    [mines] and [safes] as the propagation pass left them.  Hence, for a
    sentence created by the elimination pass of a call on which
    [known_mines()] or [known_safes()] is already truthy, no cell of it has
    been added to [mines] or [safes] during that call; from a state in
    which no sentence mentions a classified cell (every state the calls
    reach) its cells are in neither set when the call returns. *)
Theorem derived_not_acted_upon (c : cell) (n : Z) (ai : MinesweeperAI.t)
    (t : Sentence.t) :
  let before := propagate (record_reveal c n ai) in
  let after := add_knowledge c n ai in
  t ∈ new_knowledge (knowledge before) →
  resolvable t = true →
  after = infer_new_sentences before
  ∧ mines after = mines before ∧ safes after = safes before
  ∧ t ∈ knowledge after
  ∧ (∀ x, x ∈ Sentence.cells t →
          (x ∈ mines after → x ∈ mines ai)
          ∧ (x ∈ safes after → x ∈ safes ai))
  ∧ (clean ai →
     ∀ x, x ∈ Sentence.cells t → (x ∉ mines after) ∧ (x ∉ safes after)).
Proof.
  intros before after Ht _.
  assert (Hin : t ∈ knowledge after).
  { subst after. unfold add_knowledge. simpl. apply elem_of_app. by right. }
  split; [done |]. split; [done |]. split; [done |]. split; [done |]. split.
  - intros x Hx.
    destruct (new_knowledge_cells _ _ Ht) as (s2 & Hs2 & Hsub).
    apply (unmarked_propagate _ _ _ (unmarked_record_reveal c n ai) s2 x);
      [done | by apply Hsub].
  - intros Hclean x Hx.
    apply (clean_member after t x); [| done..].
    by apply clean_add_knowledge.
Qed.

(** On the 2x3 board whose mine is (1,0): after (0,1) and (0,0) are
    revealed, elimination derives [{(0,2), (1,2)} = 0]; the two cells are
    not in [safes] when the call returns. *)
Lemma derived_not_acted_upon_witness :
  let ai := run (MinesweeperAI.init 2 3) [AddKnowledge (0,1) 1] in
  let t := Sentence.mk {[ (0,2); (1,2) ]} 0 in
  let after := add_knowledge (0,0) 1 ai in
  (t ∈ new_knowledge (knowledge (propagate (record_reveal (0,0) 1 ai)))
   ∧ resolvable t = true)
  ∧ t ∈ knowledge after
  ∧ (∀ x, x ∈ Sentence.cells t → (x ∉ mines after) ∧ (x ∉ safes after)).
Proof.
  intros ai t after.
  assert (H1 : t ∈ new_knowledge
                     (knowledge (propagate (record_reveal (0,0) 1 ai)))).
  { refine (bool_decide_unpack _ _). by vm_compute. }
  assert (H2 : resolvable t = true) by (vm_compute; reflexivity).
  split; [by split |].
  destruct (derived_not_acted_upon (0,0) 1 ai t H1 H2)
    as (_ & _ & _ & Hin & _ & Hclean).
  split; [exact Hin |]. apply Hclean.
  apply clean_run, clean_init.
Defined.

(** The next call acts on the sentence derived above: its propagation pass
    marks both cells safe. *)
Example derived_acted_upon_next_call :
  let ai := run (MinesweeperAI.init 2 3)
              [AddKnowledge (0,1) 1; AddKnowledge (0,0) 1] in
  safes ai = {[ (0,0); (0,1) ]}
  ∧ safes (add_knowledge (1,1) 1 ai)
    = {[ (0,0); (0,1); (1,1); (0,2); (1,2) ]}.
Proof. vm_compute. split; reflexivity. Qed.

End SinglePassFacts.

(** ** What [add_knowledge] records, and what is left of it on return *)
Section AddKnowledgeReturn.
Import MinesweeperAI.








End AddKnowledgeReturn.

(** ** Sentences are true of the board *)
Section SoundFacts.
Import MinesweeperAI.

Variable b : Minesweeper.t.
Hypothesis Hboard : board_ok b = true.

Abbreviation M := (Minesweeper.mines b).

Lemma board_mines_in_range c :
  c ∈ M → in_range (Minesweeper.height b) (Minesweeper.width b) c = true.
Proof.
  intros Hc. unfold board_ok in Hboard.
  rewrite forallb_forall in Hboard. apply Hboard.
  by apply list_elem_of_In, elem_of_elements.
Qed.

Lemma sound_init :
  sound b (MinesweeperAI.init (Minesweeper.height b) (Minesweeper.width b)).
Proof.
  unfold sound. simpl. repeat split; try set_solver.
Qed.

Lemma sound_mark_mine c a : c ∈ M → sound b a → sound b (mark_mine c a).
Proof.
  intros Hc (Hh & Hw & Hm & Hs & Hk). unfold sound. simpl.
  repeat split; try done; [set_solver |].
  intros s (s0 & -> & Hs0)%list_elem_of_fmap.
  specialize (Hk s0 Hs0). unfold Sentence.mark_mine.
  case_decide as Hin; [| done]. simpl.
  replace ((Sentence.cells s0 ∖ {[c]}) ∩ M)
    with ((Sentence.cells s0 ∩ M) ∖ {[c]}) by set_solver.
  rewrite size_remove_member by set_solver. lia.
Qed.

Lemma sound_mark_safe c a : c ∉ M → sound b a → sound b (mark_safe c a).
Proof.
  intros Hc (Hh & Hw & Hm & Hs & Hk). unfold sound. simpl.
  repeat split; try done; [set_solver |].
  intros s (s0 & -> & Hs0)%list_elem_of_fmap.
  specialize (Hk s0 Hs0). unfold Sentence.mark_safe.
  case_decide as Hin; [| done]. simpl.
  replace ((Sentence.cells s0 ∖ {[c]}) ∩ M)
    with (Sentence.cells s0 ∩ M) by set_solver.
  done.
Qed.

(** A sentence true of the board whose count equals its size has only mines. *)
Lemma sound_all_mines (X : gset cell) (n : Z) c :
  n = Z.of_nat (size (X ∩ M)) → Z.of_nat (size X) = n → c ∈ X → c ∈ M.
Proof.
  intros Hn Hsz Hc.
  assert (Heq : X ∩ M = X).
  { apply set_subseteq_size_eq; [set_solver | lia]. }
  set_solver.
Qed.

(** A sentence true of the board whose count is zero has no mine. *)
Lemma sound_no_mines (X : gset cell) (n : Z) c :
  n = Z.of_nat (size (X ∩ M)) → n = 0 → c ∈ X → c ∉ M.
Proof.
  intros Hn Hz Hc Hm.
  assert (Hsz : size (X ∩ M) = 0%nat) by lia.
  apply size_empty_iff in Hsz. set_solver.
Qed.

Lemma sound_propagate a : sound b a → sound b (propagate a).
Proof.
  apply propagate_ind.
  - intros x s c Hx Hs Hc Hsz. apply sound_mark_mine; [| done].
    destruct Hx as (_ & _ & _ & _ & Hk).
    by eapply sound_all_mines; [apply (Hk s Hs) | |].
  - intros x s c Hx Hs Hc Hz. apply sound_mark_safe; [| done].
    destruct Hx as (_ & _ & _ & _ & Hk).
    by eapply sound_no_mines; [apply (Hk s Hs) | |].
Qed.

Lemma size_inter_difference (X Y : gset cell) :
  X ⊆ Y →
  Z.of_nat (size ((Y ∖ X) ∩ M))
  = Z.of_nat (size (Y ∩ M)) - Z.of_nat (size (X ∩ M)).
Proof.
  intros Hsub.
  replace ((Y ∖ X) ∩ M) with ((Y ∩ M) ∖ (X ∩ M)) by set_solver.
  assert (Hsub' : X ∩ M ⊆ Y ∩ M) by set_solver.
  rewrite size_difference by done.
  apply subseteq_size in Hsub'. lia.
Qed.

Lemma sound_infer_new_sentences a :
  sound b a → sound b (infer_new_sentences a).
Proof.
  intros (Hh & Hw & Hm & Hs & Hk). unfold sound. simpl.
  repeat split; try done.
  intros s
    [Hin | (_ & s1 & s2 & H1 & H2 & _ & Hsub & ->)%elem_of_new_knowledge]
    %elem_of_app; [by apply Hk |].
  simpl. rewrite (Hk s1 H1), (Hk s2 H2). by rewrite size_inter_difference.
Qed.

Lemma nearby_fold (l : list cell) (acc : Z) :
  foldl (λ n nb,
           if in_range (Minesweeper.height b) (Minesweeper.width b) nb
              && bool_decide (nb ∈ M)
           then n + 1 else n) acc l
  = acc + Z.of_nat (length (filter (λ x, x ∈ M) l)).
Proof.
  revert acc. induction l as [|x l IH]; intros acc; simpl; [lia |].
  rewrite IH, filter_cons. case_bool_decide as Hx.
  - rewrite board_mines_in_range, decide_True by done. simpl. lia.
  - rewrite andb_false_r, decide_False by done. lia.
Qed.

(** The count of the new sentence, for a truthful reveal. *)
Lemma undetermined_count (m sf : gset cell) (l : list cell) :
  m ⊆ M → sf ## M →
  (length (filter (λ x, x ∈ M)
     (filter (λ x, in_range (Minesweeper.height b) (Minesweeper.width b) x
                   = true ∧ (x ∉ sf) ∧ (x ∉ m)) l))
   + length (filter (λ x, x ∈ m) l))%nat
  = length (filter (λ x, x ∈ M) l).
Proof.
  intros Hm Hsf. induction l as [|x l IH]; [done |].
  rewrite !filter_cons.
  destruct (decide (x ∈ M)) as [HxM|HxM].
  - pose proof (board_mines_in_range x HxM) as Hr.
    destruct (decide (x ∈ m)) as [Hxm|Hxm].
    + rewrite decide_False by tauto. simpl. lia.
    + rewrite decide_True by (repeat split; [done | set_solver | done]).
      rewrite filter_cons, decide_True by done. simpl. lia.
  - rewrite (decide_False (P := x ∈ m)) by set_solver.
    case_decide; [| done].
    by rewrite filter_cons, decide_False.
Qed.

Lemma sound_record_reveal c n a :
  Minesweeper.is_mine b c = Some false →
  Minesweeper.nearby_mines b c = Some n →
  sound b a → sound b (record_reveal c n a).
Proof.
  intros Hmine Hnear (Hh & Hw & Hm & Hs & Hk).
  unfold Minesweeper.is_mine in Hmine.
  unfold Minesweeper.nearby_mines in Hnear. rewrite nearby_fold in Hnear.
  destruct (in_range _ _ c); [| done].
  injection Hmine as HcM%bool_decide_eq_false.
  assert (Hn : n = 0 + Z.of_nat (length (filter (λ x, x ∈ M) (neighbors c))))
    by congruence.
  clear Hnear. subst n.
  rewrite record_reveal_eq. unfold sound. simpl.
  repeat split; try done; [set_solver |].
  intros s
    [(s0 & -> & Hs0)%list_elem_of_fmap | ->%list_elem_of_singleton]
    %elem_of_app.
  - specialize (Hk s0 Hs0). unfold Sentence.mark_safe.
    case_decide as Hin; [| done]. simpl.
    replace ((Sentence.cells s0 ∖ {[c]}) ∩ M)
      with (Sentence.cells s0 ∩ M) by set_solver.
    done.
  - simpl.
    match goal with
    | |- context [list_to_set ?l] => set (und := l)
    end.
    assert (Hset : (list_to_set und : gset cell) ∩ M
                   = list_to_set (filter (λ x, x ∈ M) und)).
    { apply set_eq. intros x.
      rewrite elem_of_intersection, !elem_of_list_to_set,
        list_elem_of_filter. tauto. }
    rewrite Hset, size_list_to_set
      by (do 2 apply NoDup_filter; apply NoDup_neighbors).
    subst und. rewrite Hh, Hw.
    pose proof (undetermined_count (mines a) ({[c]} ∪ safes a)
                  (neighbors c)) as Hcount.
    rewrite <- Hcount by set_solver. lia.
Qed.

Lemma sound_add_knowledge c n a :
  Minesweeper.is_mine b c = Some false →
  Minesweeper.nearby_mines b c = Some n →
  sound b a → sound b (add_knowledge c n a).
Proof.
  intros. by apply sound_infer_new_sentences, sound_propagate,
    sound_record_reveal.
Qed.

Lemma sound_exec a k : truthful b k = true → sound b a → sound b (exec a k).
Proof.
  destruct k as [c n|c|c| |pick]; simpl; try done.
  - intros [?%bool_decide_eq_true ?%bool_decide_eq_true]%andb_true_iff.
    by apply sound_add_knowledge.
  - intros ?%bool_decide_eq_true. by apply sound_mark_mine.
  - intros ?%bool_decide_eq_true. by apply sound_mark_safe.
Qed.

Lemma sound_run a ks :
  forallb (truthful b) ks = true → sound b a → sound b (run a ks).
Proof.
  revert a. induction ks as [|k ks IH]; intros a Hks Ha; [done |].
  simpl in Hks. apply andb_true_iff in Hks as [Hk Hks].
  by apply IH, sound_exec.
Qed.

End SoundFacts.

(** ** Bounds on the count of a sentence *)
Section BoundFacts.
Import MinesweeperAI.

Lemma sound_within_bounds b a s :
  sound b a → s ∈ knowledge a →
  within_bounds s
  ∧ Sentence.count s
    = Z.of_nat (size (Sentence.cells s ∩ Minesweeper.mines b)).
Proof.
  intros (_ & _ & _ & _ & Hk) Hs. specialize (Hk s Hs).
  split; [| done]. unfold within_bounds. rewrite Hk.
  assert (Hsub : Sentence.cells s ∩ Minesweeper.mines b ⊆ Sentence.cells s)
    by set_solver.
  apply subseteq_size in Hsub. lia.
Qed.

(** What the two sentence updates need to keep the bounds. *)
Lemma mark_mine_within_bounds c s :
  within_bounds s → (c ∈ Sentence.cells s → 0 < Sentence.count s) →
  within_bounds (Sentence.mark_mine c s).
Proof.
  unfold within_bounds, Sentence.mark_mine. intros Hb Hpos.
  case_decide as Hc; [| done]. simpl.
  rewrite size_remove_member by done. specialize (Hpos Hc). lia.
Qed.

Lemma mark_safe_within_bounds c s :
  within_bounds s →
  (c ∈ Sentence.cells s →
   Sentence.count s < Z.of_nat (size (Sentence.cells s))) →
  within_bounds (Sentence.mark_safe c s).
Proof.
  unfold within_bounds, Sentence.mark_safe. intros Hb Hlt.
  case_decide as Hc; [| done]. simpl.
  rewrite size_remove_member by done. specialize (Hlt Hc). lia.
Qed.

(** The bounds are not enforced: a reveal with a count the board cannot
    give builds a sentence outside them, and each of the two sentence
    updates can take a sentence out of them. *)
Lemma sentence_count_bounds_counterexample :
  (∃ s, s ∈ knowledge (run (MinesweeperAI.init 8 8) [AddKnowledge (0,0) 5])
        ∧ ¬ within_bounds s)
  ∧ (within_bounds (Sentence.mk {[ (0,0) ]} 0)
     ∧ ¬ within_bounds (Sentence.mark_mine (0,0) (Sentence.mk {[ (0,0) ]} 0)))
  ∧ (within_bounds (Sentence.mk {[ (0,0) ]} 1)
     ∧ ¬ within_bounds (Sentence.mark_safe (0,0) (Sentence.mk {[ (0,0) ]} 1))).
Proof.
  split; [| split].
  - exists (Sentence.mk {[ (0,1); (1,0); (1,1) ]} 5). split.
    + refine (bool_decide_unpack _ _). by vm_compute.
    + unfold within_bounds. vm_compute. intros [_ H]. by apply H.
  - split; unfold within_bounds; vm_compute.
    + split; discriminate.
    + intros [H _]. by apply H.
  - split; unfold within_bounds; vm_compute.
    + split; discriminate.
    + intros [_ H]. by apply H.
Qed.

(** C9 (amended): when the agent is driven truthfully for a board (its
    dimensions are the board's, every reveal is of a cell that is not a mine
    with the count the board gives, and the marking operations are used on
    actual mines and non-mines), every sentence of the knowledge base has
    [0 ≤ count ≤ |cells|], indeed its count is the number of actual mines
    among its cells: in every state between calls, and inside a further
    truthful [add_knowledge] after the new sentence is appended and after
    the propagation pass. *)
Theorem sentence_count_bounds (b : Minesweeper.t) (ks : list call) :
  board_ok b = true →
  forallb (truthful b) ks = true →
  let a := run (MinesweeperAI.init (Minesweeper.height b)
                                   (Minesweeper.width b)) ks in
  let bounded (x : MinesweeperAI.t) :=
    ∀ s, s ∈ knowledge x →
         within_bounds s
         ∧ Sentence.count s
           = Z.of_nat (size (Sentence.cells s ∩ Minesweeper.mines b)) in
  bounded a
  ∧ ∀ c n, truthful b (AddKnowledge c n) = true →
           bounded (record_reveal c n a)
           ∧ bounded (propagate (record_reveal c n a))
           ∧ bounded (add_knowledge c n a).
Proof.
  intros Hb Hks a bounded.
  assert (Ha : sound b a) by (apply sound_run; [done.. | by apply sound_init]).
  split; [intros s; by apply sound_within_bounds |].
  intros c n [Hm%bool_decide_eq_true Hn%bool_decide_eq_true]%andb_true_iff.
  assert (H1 : sound b (record_reveal c n a))
    by by apply sound_record_reveal.
  assert (H2 : sound b (propagate (record_reveal c n a)))
    by by apply sound_propagate.
  assert (H3 : sound b (add_knowledge c n a))
    by by apply sound_infer_new_sentences.
  split; [| split]; intros s; by apply sound_within_bounds.
Qed.

Lemma sentence_count_bounds_witness :
  let b := Minesweeper.mk 3 3 {[ (0,2); (2,0) ]} in
  let ks := [AddKnowledge (2,1) 1; AddKnowledge (0,1) 1;
             AddKnowledge (1,1) 2] in
  (board_ok b = true ∧ forallb (truthful b) ks = true)
  ∧ ∀ s, s ∈ knowledge (run (MinesweeperAI.init 3 3) ks) → within_bounds s.
Proof.
  intros b ks.
  assert (H1 : board_ok b = true) by (vm_compute; reflexivity).
  assert (H2 : forallb (truthful b) ks = true) by (vm_compute; reflexivity).
  split; [by split |].
  intros s Hs.
  exact (proj1 (proj1 (sentence_count_bounds b ks H1 H2) s Hs)).
Defined.

End BoundFacts.

(** ** The model checker *)
Section LogicFacts.
Import Logic.

(** Induction over sentences, with the operands of [And] and [Or]. *)
Section SentenceInd.
Variable P : Sentence → Prop.
Hypothesis HBase : P Base.
Hypothesis HSymbol : ∀ name, P (Symbol name).
Hypothesis HNot : ∀ s, P s → P (Not s).
Hypothesis HAnd : ∀ l, Forall P l → P (And l).
Hypothesis HOr : ∀ l, Forall P l → P (Or l).
Hypothesis HImplication : ∀ a c, P a → P c → P (Implication a c).
Hypothesis HBiconditional : ∀ l r, P l → P r → P (Biconditional l r).

Fixpoint Sentence_nested_ind (s : Sentence) : P s :=
  match s with
  | Base => HBase
  | Symbol name => HSymbol name
  | Not operand => HNot operand (Sentence_nested_ind operand)
  | And conjuncts =>
      HAnd conjuncts
        ((fix go (l : list Sentence) : Forall P l :=
            match l with
            | [] => Forall_nil_2 P
            | x :: l' => Forall_cons_2 P x l' (Sentence_nested_ind x) (go l')
            end) conjuncts)
  | Or disjuncts =>
      HOr disjuncts
        ((fix go (l : list Sentence) : Forall P l :=
            match l with
            | [] => Forall_nil_2 P
            | x :: l' => Forall_cons_2 P x l' (Sentence_nested_ind x) (go l')
            end) disjuncts)
  | Implication a c =>
      HImplication a c (Sentence_nested_ind a) (Sentence_nested_ind c)
  | Biconditional l r =>
      HBiconditional l r (Sentence_nested_ind l) (Sentence_nested_ind r)
  end.
End SentenceInd.

Lemma union_fold_Some (rest : list (option (gset string))) acc ss :
  foldl (λ acc s, a ← acc; x ← s; Some (a ∪ x)) acc rest = Some ss →
  (∃ a, acc = Some a ∧ a ⊆ ss)
  ∧ ∀ o, o ∈ rest → ∃ x, o = Some x ∧ x ⊆ ss.
Proof.
  revert acc. induction rest as [|o rest IH]; intros acc Hf; simpl in Hf.
  - split; [by exists ss |]. by intros o []%elem_of_nil.
  - apply IH in Hf as [(a' & Ha' & Hsub) Hrest].
    destruct acc as [a|]; [| done]. destruct o as [x|]; [| done].
    simpl in Ha'. injection Ha' as <-. split.
    + exists a. split; [done | set_solver].
    + intros o [-> | Ho]%elem_of_cons; [| by apply Hrest].
      exists x. split; [done | set_solver].
Qed.

Lemma set_union_star_Some sets ss :
  set_union_star sets = Some ss →
  sets ≠ [] ∧ ∀ o, o ∈ sets → ∃ x, o = Some x ∧ x ⊆ ss.
Proof.
  destruct sets as [|first rest]; [done |]. simpl.
  intros [(a & -> & Ha) Hrest]%union_fold_Some. split; [done |].
  intros o [-> | Ho]%elem_of_cons; [by exists a | by apply Hrest].
Qed.

Lemma base_free_forallb (l : list Sentence) c :
  forallb base_free l = true → c ∈ l → base_free c = true.
Proof.
  intros Hall Hc. rewrite forallb_forall in Hall.
  by apply Hall, list_elem_of_In.
Qed.

(** On a sentence without a bare base-class instance, [evaluate] raises
    only on a symbol the model does not assign. *)
Lemma evaluate_total (m : gmap string bool) s :
  base_free s = true →
  ∀ ss, symbols s = Some ss → ss ⊆ dom m → is_Some (evaluate m s).
Proof.
  induction s as [|name|s IH|l IH|l IH|a c IHa IHc|l r IHl IHr]
    using Sentence_nested_ind; intros Hbf ss Hs Hsub; simpl in *.
  - done.
  - injection Hs as <-. apply elem_of_dom. set_solver.
  - destruct (IH Hbf ss Hs Hsub) as [v ->]. by eexists.
  - apply set_union_star_Some in Hs as [_ Hall].
    induction IH as [|c l Hc _ IHl]; simpl; [by eexists |].
    simpl in Hbf. apply andb_true_iff in Hbf as [Hbc Hbl].
    destruct (Hall (symbols c)) as (x & Hx & Hxs); [left |].
    destruct (Hc Hbc x Hx) as [v ->]; [set_solver |].
    destruct IHl as [w ->]; [done | |].
    { intros o Ho. apply Hall. by right. }
    destruct v; by eexists.
  - apply set_union_star_Some in Hs as [_ Hall].
    induction IH as [|c l Hc _ IHl]; simpl; [by eexists |].
    simpl in Hbf. apply andb_true_iff in Hbf as [Hbc Hbl].
    destruct (Hall (symbols c)) as (x & Hx & Hxs); [left |].
    destruct (Hc Hbc x Hx) as [v ->]; [set_solver |].
    destruct IHl as [w ->]; [done | |].
    { intros o Ho. apply Hall. by right. }
    destruct v; by eexists.
  - apply andb_true_iff in Hbf as [Hba Hbc].
    destruct (symbols a) as [sa|]; [| done].
    destruct (symbols c) as [sc|]; [| done]. injection Hs as <-.
    destruct (IHa Hba sa eq_refl) as [va ->]; [set_solver |].
    destruct (IHc Hbc sc eq_refl) as [vc ->]; [set_solver |].
    destruct va; by eexists.
  - apply andb_true_iff in Hbf as [Hbl Hbr].
    destruct (symbols l) as [sl|]; [| done].
    destruct (symbols r) as [sr|]; [| done]. injection Hs as <-.
    destruct (IHl Hbl sl eq_refl) as [vl ->]; [set_solver |].
    destruct (IHr Hbr sr eq_refl) as [vr ->]; [set_solver |].
    destruct vl, vr; by eexists.
Qed.

(** [check_all] on the remaining symbols [l], from a model that assigns
    none of them: it returns, and returns [True] exactly when every
    extension of the model to the symbols of [l] that makes the knowledge
    true makes the query true. *)
Lemma check_all_spec k q ks qs :
  base_free k = true → base_free q = true →
  symbols k = Some ks → symbols q = Some qs →
  ∀ (l : list string) (m : gmap string bool),
    NoDup l → (∀ p, p ∈ l → p ∉ dom m) →
    ks ∪ qs ⊆ dom m ∪ list_to_set l →
    ∃ b, check_all k q l m = Some b
         ∧ (b = true ↔
            ∀ m' : gmap string bool,
              m ⊆ m' → dom m' = dom m ∪ list_to_set l →
              evaluate m' k = Some true → evaluate m' q = Some true).
Proof.
  intros Hbk' Hbq' Hk Hq.
  induction l as [|p l IH]; intros m Hnd Hfresh Hsub.
  - simpl in *.
    destruct (evaluate_total m k Hbk' ks Hk) as [bk Hbk]; [set_solver |].
    destruct (evaluate_total m q Hbq' qs Hq) as [bq Hbq]; [set_solver |].
    rewrite Hbk.
    assert (Hsame : ∀ m' : gmap string bool,
               m ⊆ m' → dom m' = dom m ∪ ∅ → m' = m).
    { intros m' Hm Hd. symmetry. apply subseteq_dom_eq; [done | set_solver]. }
    destruct bk.
    + exists bq. split; [done |]. split.
      * intros -> m' Hm Hd _. by rewrite (Hsame m' Hm Hd).
      * intros Hall. specialize (Hall m). rewrite Hbq in Hall.
        assert (Some bq = Some true) as [= ->]; [| done].
        apply Hall; [done | set_solver | done].
    + exists true. split; [done |]. split; [| done].
      intros _ m' Hm Hd. rewrite (Hsame m' Hm Hd), Hbk. done.
  - apply NoDup_cons in Hnd as [Hp Hnd].
    assert (Hpm : m !! p = None).
    { apply not_elem_of_dom, Hfresh. left. }
    assert (Hstep : ∀ v : bool,
      ∃ b, check_all k q l (<[p:=v]> m) = Some b
           ∧ (b = true ↔
              ∀ m' : gmap string bool,
                <[p:=v]> m ⊆ m' →
                dom m' = dom (<[p:=v]> m) ∪ list_to_set l →
                evaluate m' k = Some true → evaluate m' q = Some true)).
    { intros v. apply IH; [done | |].
      - intros x Hx. rewrite dom_insert_L.
        assert (x ≠ p) by (intros ->; done).
        assert (x ∉ dom m) by (apply Hfresh; by right). set_solver.
      - rewrite dom_insert_L. simpl in Hsub. set_solver. }
    destruct (Hstep true) as (b1 & Hb1 & Hiff1).
    destruct (Hstep false) as (b2 & Hb2 & Hiff2).
    simpl. rewrite Hb1, Hb2. exists (b1 && b2). split.
    { by destruct b1. }
    rewrite andb_true_iff, Hiff1, Hiff2. split.
    + intros [H1 H2] m' Hm Hd Hev.
      assert (is_Some (m' !! p)) as [v Hv].
      { apply elem_of_dom. rewrite Hd. set_solver. }
      destruct v; [apply H1 | apply H2]; try done;
        try (by apply insert_subseteq_l);
        rewrite Hd, dom_insert_L; set_solver.
    + intros Hall. split; intros m' Hm Hd Hev; apply Hall; try done.
      * etrans; [by apply (insert_subseteq m p true) | done].
      * rewrite Hd, dom_insert_L. set_solver.
      * etrans; [by apply (insert_subseteq m p false) | done].
      * rewrite Hd, dom_insert_L. set_solver.
Qed.

Lemma union_fold_is_Some (rest : list (option (gset string))) acc :
  is_Some acc → Forall is_Some rest →
  is_Some (foldl (λ acc s, a ← acc; x ← s; Some (a ∪ x)) acc rest).
Proof.
  intros Hacc Hrest. revert acc Hacc.
  induction Hrest as [|o rest [x ->] _ IH]; intros acc [a ->]; simpl;
    [by eexists |].
  apply IH. by eexists.
Qed.

(** [symbols] returns exactly on the sentences whose [And]s and [Or]s have
    an operand. *)
Lemma symbols_is_Some s :
  is_Some (symbols s) ↔ nonempty_operands s = true.
Proof.
  induction s as [|name|s IH|l IH|l IH|a c IHa IHc|l r IHl IHr]
    using Sentence_nested_ind; simpl.
  - split; [done | by eexists].
  - split; [done | by eexists].
  - done.
  - rewrite andb_true_iff, negb_true_iff, bool_decide_eq_false. split.
    + intros [ss [Hne Hall]%set_union_star_Some]. split.
      { by destruct l. }
      apply forallb_forall. intros c Hc%list_elem_of_In.
      rewrite Forall_forall in IH. apply IH; [done |].
      destruct (Hall (symbols c)) as (x & -> & _); [| by eexists].
      by apply list_elem_of_fmap_2.
    + intros [Hne Hall]. rewrite forallb_forall in Hall.
      destruct l as [|c l]; [done |]. simpl.
      apply Forall_cons in IH as [IHc IHl].
      apply union_fold_is_Some.
      * apply IHc, Hall. by left.
      * apply Forall_forall. intros o (d & -> & Hd)%list_elem_of_fmap.
        rewrite Forall_forall in IHl. apply IHl; [done |].
        apply Hall. right. by apply list_elem_of_In.
  - rewrite andb_true_iff, negb_true_iff, bool_decide_eq_false. split.
    + intros [ss [Hne Hall]%set_union_star_Some]. split.
      { by destruct l. }
      apply forallb_forall. intros c Hc%list_elem_of_In.
      rewrite Forall_forall in IH. apply IH; [done |].
      destruct (Hall (symbols c)) as (x & -> & _); [| by eexists].
      by apply list_elem_of_fmap_2.
    + intros [Hne Hall]. rewrite forallb_forall in Hall.
      destruct l as [|c l]; [done |]. simpl.
      apply Forall_cons in IH as [IHc IHl].
      apply union_fold_is_Some.
      * apply IHc, Hall. by left.
      * apply Forall_forall. intros o (d & -> & Hd)%list_elem_of_fmap.
        rewrite Forall_forall in IHl. apply IHl; [done |].
        apply Hall. right. by apply list_elem_of_In.
  - rewrite andb_true_iff, <- IHa, <- IHc.
    destruct (symbols a), (symbols c); simpl; split;
      try (intros [? ?]); try (intros [[? ?] [? ?]]); try done;
      by (split; eexists) || by eexists.
  - rewrite andb_true_iff, <- IHl, <- IHr.
    destruct (symbols l), (symbols r); simpl; split;
      try (intros [? ?]); try (intros [[? ?] [? ?]]); try done;
      by (split; eexists) || by eexists.
Qed.

(** Without operands [symbols] raises, and so does [model_check]: [Or()] is
    satisfied by no model, yet [model_check] does not return [True] on it.
    An instance of the bare base class raises in [evaluate]: no model
    satisfies it either, and [model_check] raises on it as knowledge. *)
Lemma model_check_counterexample :
  (∀ m : gmap string bool, evaluate m (Or []) = Some false)
  ∧ model_check (Or []) (Symbol "A") = None
  ∧ model_check (Or []) (Symbol "A") ≠ Some true
  ∧ (∀ m : gmap string bool, evaluate m Base = None)
  ∧ nonempty_operands Base = true
  ∧ model_check Base (Symbol "A") = None.
Proof. by repeat split. Qed.

(** C10 (amended): for a knowledge sentence and a query built from symbols
    and the five connectives only (no instance of the bare base class), in
    which every [And] and [Or] has at least one operand, [model_check]
    returns a boolean, and it returns [True] exactly when every assignment
    of truth values to the symbols of the two sentences that makes the
    knowledge true makes the query true; in particular it returns [True]
    when no such assignment makes the knowledge true. *)
Theorem model_check_entails (k q : Sentence) :
  base_free k = true → nonempty_operands k = true →
  base_free q = true → nonempty_operands q = true →
  ∃ ks qs b,
    symbols k = Some ks ∧ symbols q = Some qs
    ∧ model_check k q = Some b
    ∧ (b = true ↔
       ∀ m : gmap string bool,
         dom m = ks ∪ qs →
         evaluate m k = Some true → evaluate m q = Some true)
    ∧ ((∀ m : gmap string bool,
          dom m = ks ∪ qs → evaluate m k ≠ Some true) →
       b = true).
Proof.
  intros Hbk [ks Hk]%symbols_is_Some Hbq [qs Hq]%symbols_is_Some.
  destruct (check_all_spec k q ks qs Hbk Hbq Hk Hq (elements (ks ∪ qs)) ∅)
    as (b & Hb & Hiff).
  { apply NoDup_elements. }
  { intros p _. rewrite dom_empty_L. set_solver. }
  { rewrite list_to_set_elements_L. set_solver. }
  assert (Hiff' : b = true ↔
     ∀ m : gmap string bool,
       dom m = ks ∪ qs →
       evaluate m k = Some true → evaluate m q = Some true).
  { rewrite Hiff. split.
    - intros Hall m Hd. apply Hall; [apply map_empty_subseteq |].
      rewrite dom_empty_L, list_to_set_elements_L, Hd. set_solver.
    - intros Hall m _ Hd. apply Hall.
      rewrite Hd, dom_empty_L, list_to_set_elements_L. set_solver. }
  exists ks, qs, b. repeat split; try done.
  - unfold model_check. rewrite Hk, Hq. done.
  - by apply Hiff'.
  - by apply Hiff'.
  - intros Hunsat. apply Hiff'. intros m Hd Hev. by destruct (Hunsat m Hd).
Qed.

Lemma model_check_entails_witness :
  let k := And [Symbol "A"; Implication (Symbol "A") (Symbol "B")] in
  let q := Symbol "B" in
  (base_free k = true ∧ nonempty_operands k = true
   ∧ base_free q = true ∧ nonempty_operands q = true)
  ∧ ∃ ks qs b, symbols k = Some ks ∧ symbols q = Some qs
               ∧ model_check k q = Some b
               ∧ (b = true ↔
                  ∀ m : gmap string bool,
                    dom m = ks ∪ qs →
                    evaluate m k = Some true → evaluate m q = Some true)
               ∧ ((∀ m : gmap string bool,
                     dom m = ks ∪ qs → evaluate m k ≠ Some true) →
                  b = true).
Proof.
  intros k q. split; [by repeat split |].
  exact (model_check_entails k q eq_refl eq_refl eq_refl eq_refl).
Defined.

(** With a base-class instance as the query, [model_check] raises as soon
    as a model satisfies the knowledge, and returns [True] when none does:
    the query is then never evaluated. *)
Example model_check_base_query :
  model_check (Symbol "A") Base = None
  ∧ model_check (And [Symbol "A"; Not (Symbol "A")]) Base = Some true.
Proof. by vm_compute. Qed.

Example model_check_modus_ponens :
  model_check (And [Symbol "A"; Implication (Symbol "A") (Symbol "B")])
              (Symbol "B") = Some true
  ∧ model_check (Symbol "A") (Symbol "B") = Some false.
Proof. by vm_compute. Qed.

End LogicFacts.
